(** * offline-radio: the native audio callback (audio_processor.cpp)

    The translation unit declares one class, [AudioEngine], deriving from
    [oboe::AudioStreamCallback].  Only [onAudioReady] has a body; the member
    functions [processAudio], [compressAudio] and [decompressAudio] are
    declared and never defined.  The embedding therefore keeps the calls to
    those members symbolic: a method body is a small program over the
    member calls it makes, and it is run against an arbitrary implementation
    of the members. *)

From Stdlib Require Import ZArith.
From stdpp Require Import base list.

Local Open Scope Z_scope.

(** ** Values crossing the callback boundary *)

Module Oboe.

(** Modelled from the spec: the continue/stop signal of <oboe/Oboe.h>,
    a header that is included but is not part of the sources. *)
Inductive DataCallbackResult : Type :=
| Continue
| Stop.

End Oboe.

(** What a pointer points to, as far as the declarations of the file say. *)
Inductive pointee : Type :=
| Void
| Float
| UInt8
| AudioStream.

(** A pointer is an address; its static type is a phantom index, so that a
    cast changes the type and nothing else. *)
Record ptr (t : pointee) : Type := Ptr { addr : Z }.
Arguments Ptr {t} _.
Arguments addr {t} _.

(** [static_cast<float*>(p)] for [void *p]. *)
Definition static_cast_float (p : ptr Void) : ptr Float := Ptr (addr p).

(** [int32_t]: the callback passes the value on and computes nothing with it. *)
Definition int32 : Type := Z.

(** ** Member calls and method bodies *)

Module AudioEngine.

Import Oboe.

(** The private members, by their declared signatures (all return [void]). *)
Inductive call : Type :=
| processAudio (data : ptr Float) (frames : int32)
| compressAudio (inputBuffer : ptr Float) (outputBuffer : ptr UInt8)
| decompressAudio (inputBuffer : ptr UInt8) (outputBuffer : ptr Float).

(** A method body: member calls in sequence, then a [return]. *)
Inductive body (A : Type) : Type :=
| Return (a : A)
| Then (c : call) (k : body A).
Arguments Return {A} _.
Arguments Then {A} _ _.

(** The member calls a body makes, in order. *)
Fixpoint calls {A} (b : body A) : list call :=
  match b with
  | Return _ => []
  | Then c k => c :: calls k
  end.

(** The operand of the [return] statement the body ends in. *)
Fixpoint returned {A} (b : body A) : A :=
  match b with
  | Return a => a
  | Then _ k => returned k
  end.

(** How a call or an invocation ends: it returns, or an exception leaves
    it.  Nothing in the file is [noexcept]. *)
Inductive outcome (E A : Type) : Type :=
| Returns (a : A)
| Throws (e : E).
Arguments Returns {E A} _.
Arguments Throws {E A} _.

Section run.
(** [St] is the state the members act on, [E] what they may throw. *)
Context {St E : Type}.

(** An implementation of the undefined members. *)
Definition members : Type := call -> St -> outcome E St.

(** Running a body: there is no [try] block, so the first exception
    ends the invocation. *)
Fixpoint run {A} (m : members) (b : body A) (s : St) : outcome E (A * St) :=
  match b with
  | Return a => Returns (a, s)
  | Then c k =>
      match m c s with
      | Returns s' => run m k s'
      | Throws e => Throws e
      end
  end.
End run.

(** [oboe::DataCallbackResult onAudioReady(oboe::AudioStream *audioStream,
      void *audioData, int32_t numFrames) override] *)
Definition onAudioReady (audioStream : ptr AudioStream) (audioData : ptr Void)
    (numFrames : int32) : body DataCallbackResult :=
  Then (processAudio (static_cast_float audioData) numFrames)
       (Return Continue).

End AudioEngine.

(** ** The frame relay

    No relay is declared or used in audio_processor.cpp; the definitions of
    this module follow section 4.2 of the specification. *)

Module Relay.

(** Modelled from the spec: what happens to a push that finds the relay
    full, "drop the oldest or newest frame, never block"; the relay itself
    is missing from the sources. *)
Inductive overflow_policy : Type :=
| DropNewest
| DropOldest.

(** Modelled from the spec: the "bounded queue of frame buffers" with
    "capacity fixed at construction" and an explicit overflow policy; the
    relay is missing from the sources.  [slots] lists the queued buffers,
    oldest first. *)
Record t (Buffer : Type) : Type := Make {
  capacity : nat;
  policy : overflow_policy;
  slots : list Buffer
}.
Arguments Make {Buffer} _ _ _.
Arguments capacity {Buffer} _.
Arguments policy {Buffer} _.
Arguments slots {Buffer} _.

Section operations.
Context {Buffer : Type}.

(** Modelled from the spec: construction of the missing relay, empty,
    with its capacity and policy fixed. *)
Definition create (cap : nat) (pol : overflow_policy) : t Buffer :=
  Make cap pol [].

(** Modelled from the spec: "relay full", for the missing relay. *)
Definition full (r : t Buffer) : bool :=
  bool_decide (capacity r <= length (slots r))%nat.

(** Modelled from the spec: [tryPush(buffer) -> bool] of the missing
    relay.  A push that finds room enqueues at the back.  A push that
    finds the relay full never waits: under [DropNewest] the incoming
    buffer is refused, under [DropOldest] the oldest slot is given up
    for it (a relay of capacity zero has no slot to give up). *)
Definition tryPush (r : t Buffer) (b : Buffer) : bool * t Buffer :=
  if full r then
    match policy r, slots r with
    | DropOldest, _ :: rest =>
        (true, Make (capacity r) (policy r) (rest ++ [b]))
    | _, _ => (false, r)
    end
  else (true, Make (capacity r) (policy r) (slots r ++ [b])).

(** Modelled from the spec: [tryPop() -> optional<buffer>] of the
    missing relay. *)
Definition tryPop (r : t Buffer) : option Buffer * t Buffer :=
  match slots r with
  | [] => (None, r)
  | b :: rest => (Some b, Make (capacity r) (policy r) rest)
  end.

(** One operation of the producer or of the consumer. *)
Inductive op : Type :=
| Push (b : Buffer)
| Pop.

(** A relay together with what has happened to it: every buffer handed
    to [tryPush], every buffer obtained from [tryPop], both in order,
    and how many pushes found the relay full. *)
Record history : Type := History {
  relay : t Buffer;
  pushed : list Buffer;
  popped : list Buffer;
  overflows : nat
}.

Definition start (cap : nat) (pol : overflow_policy) : history :=
  History (create cap pol) [] [] 0.

Definition step (h : history) (o : op) : history :=
  match o with
  | Push b =>
      History (tryPush (relay h) b).2
              (pushed h ++ [b])
              (popped h)
              (if full (relay h) then S (overflows h) else overflows h)
  | Pop =>
      History (tryPop (relay h)).2
              (pushed h)
              (popped h ++ option_list (tryPop (relay h)).1)
              (overflows h)
  end.

Definition exec (ops : list op) (h : history) : history :=
  foldl step h ops.

(** A relay holds no more buffers than its capacity. *)
Definition bounded (r : t Buffer) : Prop :=
  (length (slots r) <= capacity r)%nat.

(** What a history retains: the buffers already popped, then the queued
    ones, oldest first. *)
Definition retained (h : history) : list Buffer :=
  popped h ++ slots (relay h).

(** Nothing is retained that was not pushed, in the order of the pushes,
    and each buffer that is not retained is accounted for by a push that
    found the relay full. *)
Definition consistent (h : history) : Prop :=
  retained h `sublist_of` pushed h /\
  (length (retained h) + overflows h = length (pushed h))%nat.

End operations.

End Relay.

(** ** Concrete scenarios *)

Module Scenario.

Import Oboe AudioEngine Relay.

(** An implementation of the members that counts the frames handed to
    [processAudio] and supports nothing else. *)
Definition counting : @members Z unit :=
  fun c total =>
    match c with
    | processAudio _ frames => Returns (total + frames)
    | _ => Throws tt
    end.

(** An implementation whose [processAudio] throws on a negative frame
    count and is otherwise [counting]. *)
Definition checking : @members Z unit :=
  fun c total =>
    match c with
    | processAudio _ frames =>
        if frames <? 0 then Throws tt else Returns (total + frames)
    | _ => Throws tt
    end.

(** A driver buffer of 192 frames at address 4096, on the stream at 16. *)
Definition stream : ptr AudioStream := Ptr 16.
Definition other_stream : ptr AudioStream := Ptr 32.
Definition buffer : ptr Void := Ptr 4096.
Definition frames : int32 := 192.

(** A producer that gets ahead of the consumer of a relay of two slots. *)
Definition bursty : list (@op nat) :=
  [Push 1; Push 2; Push 3; Pop; Push 4; Pop]%nat.

(** A producer that never finds the relay of two slots full. *)
Definition paced : list (@op nat) :=
  [Push 1; Push 2; Pop; Push 3; Pop; Pop; Pop]%nat.

End Scenario.

(** * Properties of the callback *)

Section callback.
Import Oboe AudioEngine.

Context {St E : Type}.
Implicit Types (m : @members St E) (s : St).
Implicit Types (audioStream : ptr AudioStream) (audioData : ptr Void).
Implicit Types (numFrames : int32).

(** An invocation of [onAudioReady] ends the way its call of
    [processAudio] ends: with [Continue] and the state that call left, or
    with the exception that call threw. *)
Lemma run_onAudioReady m audioStream audioData numFrames s :
  run m (onAudioReady audioStream audioData numFrames) s =
    match m (processAudio (static_cast_float audioData) numFrames) s with
    | Returns s' => Returns (Continue, s')
    | Throws e => Throws e
    end.
Proof. reflexivity. Qed.

(** The callback has no handler: what [processAudio] throws leaves the
    callback as well. *)
Lemma onAudioReady_throws m audioStream audioData numFrames s e :
  m (processAudio (static_cast_float audioData) numFrames) s = Throws e ->
  run m (onAudioReady audioStream audioData numFrames) s = Throws e.
Proof. intros H. rewrite run_onAudioReady, H. reflexivity. Qed.

(** C9: whatever the stream, the buffer and the frame count, the value
    [onAudioReady] returns is [Continue]: that is the operand of its one
    [return] statement, an invocation returns it whenever its call of
    [processAudio] returns, and no invocation returns [Stop]. *)
Theorem onAudioReady_returns_Continue audioStream audioData numFrames :
  returned (onAudioReady audioStream audioData numFrames) = Continue /\
  (forall m s s',
      m (processAudio (static_cast_float audioData) numFrames) s = Returns s' ->
      run m (onAudioReady audioStream audioData numFrames) s
        = Returns (Continue, s')) /\
  (forall m s r s',
      run m (onAudioReady audioStream audioData numFrames) s = Returns (r, s') ->
      r = Continue) /\
  (forall m s s',
      run m (onAudioReady audioStream audioData numFrames) s <> Returns (Stop, s')).
Proof.
  split; [reflexivity|].
  split; [intros m s s' H; rewrite run_onAudioReady, H; reflexivity|].
  assert (Hret : forall m s r s',
             run m (onAudioReady audioStream audioData numFrames) s
               = Returns (r, s') -> r = Continue).
  { intros m s r s'. rewrite run_onAudioReady.
    destruct (m _ s); intros H; inversion H; reflexivity. }
  split; [exact Hret|].
  intros m s s' H. apply Hret in H. discriminate H.
Qed.

(** C10: [onAudioReady] makes one member call, [processAudio], on the
    address of [audioData] typed as [float*] and on [numFrames] as
    received; [audioStream] changes neither the call, nor the returned
    value, nor the way an invocation ends. *)
Theorem onAudioReady_calls_processAudio_once audioStream audioData numFrames :
  calls (onAudioReady audioStream audioData numFrames)
    = [processAudio (Ptr (addr audioData)) numFrames] /\
  (forall audioStream',
      onAudioReady audioStream audioData numFrames
        = onAudioReady audioStream' audioData numFrames) /\
  (forall audioStream' m s,
      run m (onAudioReady audioStream audioData numFrames) s
        = run m (onAudioReady audioStream' audioData numFrames) s).
Proof. repeat split. Qed.

End callback.

(** * Properties of the relay *)

Section relay.
Import Relay.

Context {Buffer : Type}.
Implicit Types (r : Relay.t Buffer) (b : Buffer) (h : @history Buffer).
Implicit Types (ops : list (@op Buffer)).

Lemma full_spec r : full r = true <-> (capacity r <= length (slots r))%nat.
Proof. unfold full. apply bool_decide_eq_true. Qed.

Lemma full_false r : full r = false <-> (length (slots r) < capacity r)%nat.
Proof. unfold full. rewrite bool_decide_eq_false. lia. Qed.

Lemma create_bounded cap pol : bounded (@create Buffer cap pol).
Proof. unfold bounded. simpl. lia. Qed.

Lemma tryPush_capacity r b : capacity (tryPush r b).2 = capacity r.
Proof.
  unfold tryPush.
  destruct (full r); [|reflexivity].
  destruct (policy r), (slots r); reflexivity.
Qed.

Lemma tryPush_bounded r b : bounded r -> bounded (tryPush r b).2.
Proof.
  unfold bounded, tryPush. intros Hb.
  destruct (full r) eqn:Hfull.
  - destruct (policy r); [exact Hb|].
    destruct (slots r) as [|x rest] eqn:Hs; simpl in *.
    + rewrite Hs. simpl. lia.
    + rewrite length_app. simpl. lia.
  - apply full_false in Hfull. simpl. rewrite length_app. simpl. lia.
Qed.

Lemma tryPop_bounded r : bounded r -> bounded (tryPop r).2.
Proof.
  unfold bounded, tryPop. intros Hb.
  destruct (slots r) as [|x rest] eqn:Hs; simpl in *; [rewrite Hs|]; simpl; lia.
Qed.

Lemma start_consistent cap pol : consistent (@start Buffer cap pol).
Proof. split; [apply sublist_nil_l | reflexivity]. Qed.

Lemma step_consistent h o : consistent h -> consistent (step h o).
Proof.
  unfold consistent, retained. intros [Hsub Hlen].
  destruct o as [b|]; simpl.
  - unfold tryPush. destruct (full (relay h)) eqn:Hfull.
    + destruct (policy (relay h)), (slots (relay h)) as [|x rest] eqn:Hs;
        simpl; rewrite ?Hs.
      * split; [by apply sublist_inserts_r|].
        rewrite !length_app in *. simpl in *. lia.
      * split; [by apply sublist_inserts_r|].
        rewrite !length_app in *. simpl in *. lia.
      * split; [by apply sublist_inserts_r|].
        rewrite !length_app in *. simpl in *. lia.
      * split.
        -- rewrite (assoc_L (++)). apply sublist_app; [|done].
           etrans; [|exact Hsub].
           apply sublist_app; [done|by apply sublist_cons].
        -- rewrite !length_app in *. simpl in *. lia.
    + simpl. split.
      * rewrite (assoc_L (++)). by apply sublist_app.
      * rewrite !length_app in *. simpl in *. lia.
  - unfold tryPop. destruct (slots (relay h)) as [|x rest] eqn:Hs; simpl.
    + rewrite Hs, app_nil_r in *. by rewrite app_nil_r.
    + rewrite <- (assoc_L (++)). simpl. done.
Qed.

Lemma exec_consistent ops h : consistent h -> consistent (exec ops h).
Proof.
  unfold exec. revert h.
  induction ops as [|o ops IH]; intros h Hh; simpl; [exact Hh|].
  apply IH, step_consistent, Hh.
Qed.

Lemma step_bounded h o : bounded (relay h) -> bounded (relay (step h o)).
Proof.
  destruct o; simpl; [apply tryPush_bounded | apply tryPop_bounded].
Qed.

(** The capacity fixed at construction is never exceeded. *)
Lemma exec_bounded ops h : bounded (relay h) -> bounded (relay (exec ops h)).
Proof.
  unfold exec. revert h.
  induction ops as [|o ops IH]; intros h Hh; simpl; [exact Hh|].
  apply IH, step_bounded, Hh.
Qed.

(** A list that selects as many elements of another as that one has is
    that list. *)
Lemma sublist_same_length (k l : list Buffer) :
  k `sublist_of` l -> length k = length l -> k = l.
Proof.
  induction 1 as [|x k l Hs IH|x k l Hs IH]; simpl; intros Hlen.
  - reflexivity.
  - f_equal. apply IH. lia.
  - apply sublist_length in Hs. lia.
Qed.

(** C4: over every sequence of [tryPush] and [tryPop] on a fresh relay,
    the buffers popped so far followed by the buffers still queued are
    buffers that were pushed, in the order of their pushes; the pushed
    buffers missing from them are as many as the pushes that found the
    relay full; with no such push nothing is missing. *)
Theorem relay_fifo_no_loss cap pol ops :
  let h := exec ops (start cap pol) in
  popped h ++ slots (relay h) `sublist_of` pushed h /\
  (length (pushed h)
     = length (popped h ++ slots (relay h)) + overflows h)%nat /\
  (overflows h = 0%nat -> popped h ++ slots (relay h) = pushed h).
Proof.
  intros h.
  destruct (exec_consistent ops _ (start_consistent cap pol)) as [Hsub Hlen].
  fold h in Hsub, Hlen. unfold retained in Hsub, Hlen.
  split; [exact Hsub|]. split; [lia|].
  intros H0. apply sublist_same_length; [exact Hsub | lia].
Qed.

End relay.

(** * The scenarios, evaluated *)

Section scenarios.
Import Oboe AudioEngine Relay Scenario.

Lemma onAudioReady_checking :
  run checking (onAudioReady stream buffer frames) 0 = Returns (Continue, 192) /\
  run checking (onAudioReady stream buffer (-1)) 0 = Throws tt.
Proof. split; reflexivity. Qed.

Lemma onAudioReady_other_stream :
  run counting (onAudioReady other_stream buffer frames) 0
    = run counting (onAudioReady stream buffer frames) 0.
Proof. reflexivity. Qed.

Lemma bursty_DropNewest :
  let h := exec bursty (start 2 DropNewest) in
  (popped h, slots (relay h), overflows h) = ([1; 2], [4], 1)%nat.
Proof. reflexivity. Qed.

Lemma bursty_DropOldest :
  let h := exec bursty (start 2 DropOldest) in
  (popped h, slots (relay h), overflows h) = ([2; 3], [4], 1)%nat.
Proof. reflexivity. Qed.

Lemma paced_DropNewest :
  let h := exec paced (start 2 DropNewest) in
  (popped h, slots (relay h), overflows h) = ([1; 2; 3], [], 0)%nat.
Proof. reflexivity. Qed.

Lemma onAudioReady_returns_Continue_witness :
  run counting (onAudioReady stream buffer frames) 0
    = Returns (Continue, 192).
Proof.
  destruct (onAudioReady_returns_Continue (St:=Z) (E:=unit)
              stream buffer frames) as (_ & Hrun & _).
  apply Hrun. reflexivity.
Defined.

Lemma relay_fifo_no_loss_witness :
  popped (exec paced (start 2 DropNewest))
    ++ slots (relay (exec paced (start 2 DropNewest)))
  = pushed (exec paced (start 2 DropNewest)).
Proof.
  destruct (relay_fifo_no_loss 2 DropNewest paced) as (_ & _ & Hall).
  apply Hall. reflexivity.
Defined.

End scenarios.

(** * Further properties of the callback *)

Section callback_members.
Import Oboe AudioEngine.

Context {St E : Type}.
Implicit Types (m : @members St E) (s : St).
Implicit Types (audioStream : ptr AudioStream) (audioData : ptr Void).
Implicit Types (numFrames : int32).

(** Two implementations of the members that answer alike to every call a
    body makes run that body alike. *)
Lemma run_agree {A} (b : body A) m1 m2 :
  (forall c s, c ∈ calls b -> m1 c s = m2 c s) ->
  forall s, run m1 b s = run m2 b s.
Proof.
  induction b as [a|c k IH]; intros Hagree s; simpl; [reflexivity|].
  rewrite <- (Hagree c s) by (simpl; left).
  destruct (m1 c s) as [s'|e]; [|reflexivity].
  apply IH. intros c' s'' Hin. apply Hagree. simpl. by right.
Qed.

(** X1: [onAudioReady] neither catches nor raises.  An exception leaves an
    invocation exactly when its call of [processAudio] threw it, and an
    invocation returns exactly when that call returned, with [Continue] and
    the state that call left, to which the callback adds no change. *)
Theorem onAudioReady_exception_transparent m audioStream audioData numFrames s :
  (forall e,
      run m (onAudioReady audioStream audioData numFrames) s = Throws e <->
      m (processAudio (static_cast_float audioData) numFrames) s = Throws e) /\
  (forall r s',
      run m (onAudioReady audioStream audioData numFrames) s = Returns (r, s') <->
      r = Continue /\
      m (processAudio (static_cast_float audioData) numFrames) s = Returns s').
Proof.
  rewrite run_onAudioReady.
  destruct (m (processAudio (static_cast_float audioData) numFrames) s)
    as [s0|e0]; split.
  - intros e. split; discriminate.
  - intros r s'. split.
    + intros H. inversion H. by split.
    + intros [-> H]. inversion H. reflexivity.
  - intros e. split; intros H; inversion H; reflexivity.
  - intros r s'. split; [discriminate|]. intros [_ H]. discriminate H.
Qed.

(** X2: the callback depends on the members through one call only.  Two
    implementations that end the call of [processAudio] on this buffer and
    frame count alike, in this state, end the invocation alike, however
    they implement [compressAudio], [decompressAudio], or [processAudio]
    on other arguments. *)
Theorem onAudioReady_depends_on_processAudio_only
    m1 m2 audioStream audioData numFrames s :
  m1 (processAudio (static_cast_float audioData) numFrames) s
    = m2 (processAudio (static_cast_float audioData) numFrames) s ->
  run m1 (onAudioReady audioStream audioData numFrames) s
    = run m2 (onAudioReady audioStream audioData numFrames) s.
Proof.
  intros Hagree. rewrite !run_onAudioReady, Hagree. reflexivity.
Qed.

End callback_members.

Section callback_members_scenarios.
Import Oboe AudioEngine Scenario.

Lemma onAudioReady_exception_transparent_witness :
  run checking (onAudioReady stream buffer (-1)) 0 = Throws tt.
Proof.
  destruct (onAudioReady_exception_transparent checking stream buffer (-1) 0)
    as (Hthrows & _).
  apply Hthrows. reflexivity.
Defined.

Lemma onAudioReady_depends_on_processAudio_only_witness :
  run counting (onAudioReady stream buffer frames) 0
    = run checking (onAudioReady stream buffer frames) 0.
Proof.
  apply (onAudioReady_depends_on_processAudio_only
           counting checking stream buffer frames 0).
  reflexivity.
Defined.

End callback_members_scenarios.
